(** * ATS Resume Analyzer: keyword coverage, PDF text extraction and the
      prompt gateway of [ATS_Resume.py], embedded in Rocq.

    Python [str] values are modelled as lists of code points.  The code points
    are those below 256 (the Latin-1 range), which is what the type [ascii]
    holds; on that range the character classes below are the ones CPython
    uses for [str.lower], [str.split], [str.strip] and the regular-expression
    classes [\w] and [\b] on [str] patterns. *)

From Stdlib Require Import List Bool Arith Lia Ascii String Permutation.
Import ListNotations.

Set Implicit Arguments.

(* ------------------------------------------------------------------ *)
(** ** Strings *)

Module Str.

Definition str := list ascii.

(** A Python string literal. *)
Definition py (s : string) : str := list_ascii_of_string s.

Definition str_eq_dec : forall a b : str, {a = b} + {a <> b} :=
  list_eq_dec ascii_dec.

Definition code (c : ascii) : nat := nat_of_ascii c.

Definition between (lo hi : nat) (c : ascii) : bool :=
  (lo <=? code c) && (code c <=? hi).

(** [c.isupper()] restricted to code points that [str.lower] changes:
    A-Z, and the Latin-1 capitals U+00C0..U+00DE without the sign U+00D7. *)
Definition has_lower (c : ascii) : bool :=
  between 65 90 c || between 192 214 c || between 216 222 c.

Definition lower_char (c : ascii) : ascii :=
  if has_lower c then ascii_of_nat (code c + 32) else c.

(** [s.lower()] *)
Definition lower (s : str) : str := map lower_char s.

(** The class [\w] of [re] on a [str] pattern: alphanumeric code points
    (letters, decimal digits, and the code points with a digit or numeric
    value: superscripts U+00B2, U+00B3, U+00B9 and the fractions
    U+00BC..U+00BE) and the underscore. *)
Definition is_word (c : ascii) : bool :=
  between 48 57 c || between 65 90 c || (code c =? 95) || between 97 122 c
  || (code c =? 170) || between 178 179 c || (code c =? 181)
  || between 185 186 c || between 188 190 c
  || between 192 214 c || between 216 246 c || between 248 255 c.

(** [c.isspace()]: TAB, LF, VT, FF, CR, the separators U+001C..U+001F,
    the space, NEL (U+0085) and the no-break space (U+00A0). *)
Definition is_space (c : ascii) : bool :=
  between 9 13 c || between 28 32 c || (code c =? 133) || (code c =? 160).

(** [len(s)] *)
Definition len (s : str) : nat := List.length s.

(** [s.split()] with no argument: the maximal runs of non-whitespace
    characters, in order; [cur] is the run being scanned. *)
Fixpoint split_from (cur : str) (s : str) : list str :=
  match s with
  | [] => match cur with [] => [] | _ => [cur] end
  | c :: s' =>
      if is_space c
      then match cur with [] => split_from [] s' | _ => cur :: split_from [] s' end
      else split_from (cur ++ [c]) s'
  end.

Definition split (s : str) : list str := split_from [] s.

(** [s.lstrip()], [s.rstrip()], [s.strip()] with no argument. *)
Fixpoint lstrip (s : str) : str :=
  match s with
  | [] => []
  | c :: s' => if is_space c then lstrip s' else s
  end.

Definition rstrip (s : str) : str := rev (lstrip (rev s)).

Definition strip (s : str) : str := rstrip (lstrip s).

(** [x in l] for a list [l] of strings: a linear scan with [==]. *)
Fixpoint contains (l : list str) (x : str) : bool :=
  match l with
  | [] => false
  | y :: l' => if str_eq_dec x y then true else contains l' x
  end.

(** The list comprehension [[x for x in l if p(x)]]: a loop over [l] that
    appends the elements passing the test to the result. *)
Definition comprehension (p : str -> bool) (l : list str) : list str :=
  fold_left (fun acc x => if p x then acc ++ [x] else acc) l [].

End Str.
Import Str.

(* ------------------------------------------------------------------ *)
(** ** The regular expression [\b\w+\b] *)

Module Re.

Definition word_at (c : option ascii) : bool :=
  match c with
  | Some c => is_word c
  | None => false
  end.

(** [\b] between the character before the position and the one after it:
    exactly one of the two is a word character (the outside of the string
    counts as a non-word character). *)
Definition at_boundary (prev next : option ascii) : bool :=
  xorb (word_at prev) (word_at next).

(** [\w+\b] tried at the head of [s], greedily with backtracking: a word
    character is consumed, the longer match is tried first, and when that
    fails the match ends here if [\b] holds.  The result is the matched text
    and the rest of the string. *)
Fixpoint match_run (s : str) : option (str * str) :=
  match s with
  | [] => None
  | c :: s' =>
      if is_word c then
        match match_run s' with
        | Some (m, rest) => Some (c :: m, rest)
        | None =>
            if at_boundary (Some c) (hd_error s') then Some ([c], s') else None
        end
      else None
  end.

(** The scan of [re.findall]: at each position the pattern is tried; on a
    match the text is collected and the scan resumes after it, otherwise it
    moves one character on.  [prev] is the character before the position. *)
Fixpoint findall_from (fuel : nat) (prev : option ascii) (s : str) : list str :=
  match fuel with
  | 0 => []
  | S fuel' =>
      match s with
      | [] => []
      | c :: s' =>
          if at_boundary prev (Some c) then
            match match_run s with
            | Some (m, rest) => m :: findall_from fuel' (Some (last m c)) rest
            | None => findall_from fuel' (Some c) s'
            end
          else findall_from fuel' (Some c) s'
      end
  end.

(** [re.findall(r"\b\w+\b", s)] *)
Definition findall (s : str) : list str := findall_from (len s) None s.

End Re.

(* ------------------------------------------------------------------ *)
(** ** Iteration order of a set *)

(** [list(set(l))] lists each element of [l] once, in the iteration order of
    the set, which the language leaves to the implementation (it depends on
    the hashes of the strings).  An order is any function with these two
    properties. *)
Class SetOrder := {
  list_of_set : list str -> list str;
  list_of_set_NoDup : forall l, NoDup (list_of_set l);
  list_of_set_In : forall l x, In x (list_of_set l) <-> In x l
}.

(** One such order: each element at the place of its last occurrence. *)
Definition last_seen_order : SetOrder :=
  {| list_of_set := nodup str_eq_dec;
     list_of_set_NoDup := NoDup_nodup str_eq_dec;
     list_of_set_In := fun l x => nodup_In str_eq_dec l x |}.

(* ------------------------------------------------------------------ *)
(** ** Keyword coverage *)

Section KeywordCoverage.

Context {order : SetOrder}.

(** Lines 159-161: the keyword list [jd_keywords]. *)
Definition jd_keywords (job_desc : str) : list str :=
  let jd_keywords := Re.findall (lower job_desc) in
  let jd_keywords := comprehension (fun word => 3 <? len word) jd_keywords in
  list_of_set jd_keywords.

(** Line 163 *)
Definition resume_words (resume_text : str) : list str :=
  split (lower resume_text).

(** Lines 158-167 *)
Definition keyword_coverage (job_desc resume_text : str) : list str * list str :=
  let jd_keywords := jd_keywords job_desc in
  let resume_words := resume_words resume_text in
  let matched := comprehension (fun kw => contains resume_words kw) jd_keywords in
  let missing := comprehension (fun kw => negb (contains resume_words kw)) jd_keywords in
  (matched, missing).

End KeywordCoverage.

(* ------------------------------------------------------------------ *)
(** ** Calls that may raise *)

Module Exn.

(** The result of a call: a value, or an exception (an instance of
    [Exception], which is what [except Exception] catches). *)
Inductive outcome (A : Type) : Type :=
| Returns (a : A)
| Raises.

Arguments Raises {A}.

Definition bind {A B : Type} (m : outcome A) (k : A -> outcome B) : outcome B :=
  match m with
  | Returns a => k a
  | Raises => Raises
  end.

End Exn.
Import Exn.

Notation "x <- m ;; k" := (bind m (fun x => k))
  (at level 61, m at next level, right associativity).

(* ------------------------------------------------------------------ *)
(** ** PDF text extraction *)

Module Pdf.

Definition newline : ascii := ascii_of_nat 10.

(** What the PDF library does with an uploaded file.  [page.extract_text()]
    gives a string or [None], or raises; [pdf.pages] gives the pages or
    raises; leaving the [with] block closes the document, which may raise;
    [pdfplumber.open] gives the document or raises. *)
Record page := { extract_text : outcome (option str) }.

Record document := {
  pages : outcome (list page);
  close : outcome unit
}.

Definition upload := outcome document.

(** Truth value of a string or [None], as tested by [if x:] and [not x]. *)
Definition truthy (x : option str) : bool :=
  match x with
  | None => false
  | Some [] => false
  | Some (_ :: _) => true
  end.

(** Lines 35-38: the loop over the pages, from the text gathered so far. *)
Fixpoint extract_pages (ps : list page) (text : str) : outcome str :=
  match ps with
  | [] => Returns text
  | p :: ps' =>
      page_text <- extract_text p ;;
      match page_text with
      | Some t => if truthy page_text
                  then extract_pages ps' (text ++ t ++ [newline])
                  else extract_pages ps' text
      | None => extract_pages ps' text
      end
  end.

(** Lines 33-39: the body of the [try]. *)
Definition try_extract (uploaded_file : upload) : outcome str :=
  pdf <- uploaded_file ;;
  ps <- pages pdf ;;
  text <- extract_pages ps [] ;;
  _ <- close pdf ;;
  Returns (strip text).

(** Lines 31-41: [None] is the failure signal. *)
Definition extract_pdf_text (uploaded_file : upload) : option str :=
  match try_extract uploaded_file with
  | Returns text => Some text
  | Raises => None
  end.

(** Lines 180-183: what the page does once a file is uploaded: it reports
    the extraction failure and stops, or goes on with the resume text. *)
Inductive upload_step : Type :=
| ExtractionError
| Proceed (resume_text : str).

Definition on_upload (upload_file : upload) : upload_step :=
  let resume_text := extract_pdf_text upload_file in
  if negb (truthy resume_text) then ExtractionError
  else match resume_text with
       | Some t => Proceed t
       | None => ExtractionError
       end.

End Pdf.

(* ------------------------------------------------------------------ *)
(** ** Prompt templates and the model call *)

Module Gateway.

(** The arguments of [get_model_response] are strings or [None]. *)
Inductive pyval : Type :=
| PNone
| PStr (s : str).

(** [format(v, "")], the text a replacement field is given. *)
Definition py_str (v : pyval) : str :=
  match v with
  | PNone => py "None"
  | PStr s => s
  end.

Definition dict := list (str * pyval).

Fixpoint get (d : dict) (key : str) : outcome pyval :=
  match d with
  | [] => Raises
  | (k, v) :: d' => if str_eq_dec key k then Returns v else get d' key
  end.

Definition has_key (d : dict) (key : str) : bool :=
  match get d key with
  | Returns _ => true
  | Raises => false
  end.

Definition lbrace : ascii := ascii_of_nat 123.
Definition rbrace : ascii := ascii_of_nat 125.

(** [template.format] applied to the keyword arguments [kwargs], for templates whose replacement fields are
    plain names, as all templates of this program are: text is copied,
    doubled braces stand for one brace, [{name}] is replaced by the text of
    [kwargs[name]]; a name that is not a key, a lone closing brace and an
    unfinished field raise.  [field] is the name being read, if any. *)
Fixpoint format_from (field : option str) (t : str) (kwargs : dict) : outcome str :=
  match t with
  | [] => match field with
          | None => Returns []
          | Some _ => Raises
          end
  | c :: t' =>
      match field with
      | Some name =>
          if ascii_dec c rbrace then
            v <- get kwargs name ;;
            rest <- format_from None t' kwargs ;;
            Returns (py_str v ++ rest)
          else if ascii_dec c lbrace then Raises
          else format_from (Some (name ++ [c])) t' kwargs
      | None =>
          if ascii_dec c lbrace then
            match t' with
            | c' :: t'' =>
                if ascii_dec c' lbrace
                then rest <- format_from None t'' kwargs ;; Returns (lbrace :: rest)
                else format_from (Some []) t' kwargs
            | [] => Raises
            end
          else if ascii_dec c rbrace then
            match t' with
            | c' :: t'' =>
                if ascii_dec c' rbrace
                then rest <- format_from None t'' kwargs ;; Returns (rbrace :: rest)
                else Raises
            | [] => Raises
            end
          else rest <- format_from None t' kwargs ;; Returns (c :: rest)
      end
  end.

Definition format (t : str) (kwargs : dict) : outcome str :=
  format_from None t kwargs.

Record PromptTemplate := {
  input_variables : list str;
  template : str
}.

(** The lines of a triple-quoted literal, joined by newlines. *)
Fixpoint lines (ls : list str) : str :=
  match ls with
  | [] => []
  | [l] => l
  | l :: ls' => l ++ Pdf.newline :: lines ls'
  end.

(** Lines 45-58 *)
Definition review_prompt : PromptTemplate :=
  {| input_variables := map py ["job_desc"; "resume_text"]%string;
     template := lines (map py [
       "";
       "    You are an experienced HR Manager. ";
       "    Review the following resume against the job description. ";
       "    Highlight strengths and weaknesses clearly.";
       "";
       "    Job Description:";
       "    {job_desc}";
       "";
       "    Resume:";
       "    {resume_text}";
       "    " ]%string) |}.

(** Lines 60-73 *)
Definition optimize_prompt : PromptTemplate :=
  {| input_variables := map py ["job_desc"; "resume_text"]%string;
     template := lines (map py [
       "";
       "    You are a career coach. ";
       "    Suggest concrete improvements to the resume so that it better matches the job description. ";
       "    Provide actionable bullet points.";
       "";
       "    Job Description:";
       "    {job_desc}";
       "";
       "    Resume:";
       "    {resume_text}";
       "    " ]%string) |}.

(** Lines 75-88 *)
Definition score_prompt : PromptTemplate :=
  {| input_variables := map py ["job_desc"; "resume_text"]%string;
     template := lines (map py [
       "";
       "    You are an ATS (Applicant Tracking System). ";
       "    Score the resume on a scale of 1-100 against the job description. ";
       "    Also provide reasoning.";
       "";
       "    Job Description:";
       "    {job_desc}";
       "";
       "    Resume:";
       "    {resume_text}";
       "    " ]%string) |}.

(** Lines 90-103 *)
Definition fit_prompt : PromptTemplate :=
  {| input_variables := map py ["job_desc"; "resume_text"]%string;
     template := lines (map py [
       "";
       "    You are a career advisor. ";
       "    Calculate the overall Job Fit Score (0-100) based on skills, experience, and job alignment.";
       "    Also explain why.";
       "";
       "    Job Description:";
       "    {job_desc}";
       "";
       "    Resume:";
       "    {resume_text}";
       "    " ]%string) |}.

(** Lines 105-116 *)
Definition design_prompt : PromptTemplate :=
  {| input_variables := map py ["resume_text"]%string;
     template := lines (map py [
       "";
       "    You are a professional resume designer. ";
       "    Suggest 3 modern ATS-friendly resume template styles and formatting tips ";
       "    (fonts, layout, sections, keywords). ";
       "    Keep suggestions concise and practical.";
       "";
       "    Resume:";
       "    {resume_text}";
       "    " ]%string) |}.

(** Lines 118-127 *)
Definition translate_prompt : PromptTemplate :=
  {| input_variables := map py ["resume_text"; "language"]%string;
     template := lines (map py [
       "";
       "    Translate or rewrite this resume into {language}, ";
       "    ensuring it remains professional and ATS-friendly.";
       "";
       "    Resume:";
       "    {resume_text}";
       "    " ]%string) |}.

(** [prompt.invoke(input)]: every input variable of the template must be a
    key of [input] (a missing one raises); further keys are ignored. *)
Definition prompt_invoke (p : PromptTemplate) (input : dict) : outcome str :=
  if forallb (has_key input) (input_variables p)
  then format (template p) input
  else Raises.

Section Model.

(** The remote model, for one call: the text it generates for a prompt, or
    the exception the call ends with. *)
Variable model : str -> outcome str.

(** [StrOutputParser]: the text of the message. *)
Definition parser (message : str) : outcome str := Returns message.

(** [(prompt | model | parser).invoke(input)]: the result, and the prompts
    that were sent to the remote model. *)
Definition chain_invoke (p : PromptTemplate) (input : dict)
  : outcome str * list str :=
  match prompt_invoke p input with
  | Returns rendered => (message <- model rendered ;; parser message, [rendered])
  | Raises => (Raises, [])
  end.

(** Lines 131-154 *)
Definition get_model_response (job_desc resume_text : pyval) (mode : str)
    (extra : pyval) : outcome str * list str :=
  let invoke chain :=
    chain_invoke chain
      [(py "job_desc", job_desc); (py "resume_text", resume_text)] in
  if str_eq_dec mode (py "review") then invoke review_prompt
  else if str_eq_dec mode (py "optimize") then invoke optimize_prompt
  else if str_eq_dec mode (py "score") then invoke score_prompt
  else if str_eq_dec mode (py "fit") then invoke fit_prompt
  else if str_eq_dec mode (py "design") then invoke design_prompt
  else if str_eq_dec mode (py "translate") then
    chain_invoke translate_prompt
      [(py "resume_text", resume_text); (py "language", extra)]
  else (Returns (py "Invalid mode selected!"), []).

End Model.

End Gateway.

(* ------------------------------------------------------------------ *)
(** ** Vocabulary of the specification *)

(** [l1] is [l2] with some elements left out, the others in the same order. *)
Inductive Subseq {A : Type} : list A -> list A -> Prop :=
| Subseq_nil : Subseq [] []
| Subseq_skip x l1 l2 : Subseq l1 l2 -> Subseq l1 (x :: l2)
| Subseq_keep x l1 l2 : Subseq l1 l2 -> Subseq (x :: l1) (x :: l2).

Fixpoint last_error (s : str) : option ascii :=
  match s with
  | [] => None
  | [c] => Some c
  | _ :: s' => last_error s'
  end.

(** [t] is a maximal run of word characters of [s]: a non-empty stretch of
    [s] made of word characters, with no word character just before it and
    none just after it. *)
Definition MaximalRun (s t : str) : Prop :=
  exists before after,
    s = before ++ t ++ after /\
    t <> [] /\
    Forall (fun c => is_word c = true) t /\
    Re.word_at (last_error before) = false /\
    Re.word_at (hd_error after) = false.

(** Membership test used to state filters. *)
Definition mem (l : list str) (x : str) : bool :=
  if in_dec str_eq_dec x l then true else false.

Module PdfSpec.
Import Pdf.

(** The underlying parse raises: opening the file does, or listing the
    pages, or extracting the text of one of the pages, or closing. *)
Definition page_raises (p : page) : Prop := extract_text p = Raises.

Definition parse_raises (f : upload) : Prop :=
  match f with
  | Raises => True
  | Returns pdf =>
      match pages pdf with
      | Raises => True
      | Returns ps => Exists page_raises ps \/ close pdf = Raises
      end
  end.

(** A page text that holds nothing but whitespace, or no text at all. *)
Definition blank (t : option str) : bool :=
  match t with
  | None => true
  | Some t => forallb is_space t
  end.

Definition page_blank (p : page) : Prop :=
  exists t, extract_text p = Returns t /\ blank t = true.

(** The parse succeeds and yields no extractable text: every page is blank
    (a scanned document, or one without pages). *)
Definition no_text (f : upload) : Prop :=
  match f with
  | Raises => False
  | Returns pdf =>
      match pages pdf, close pdf with
      | Returns ps, Returns _ => Forall page_blank ps
      | _, _ => False
      end
  end.

(** A scanned document of one page, which has no text. *)
Definition scanned_pdf : upload :=
  Returns {| pages := Returns [ {| extract_text := Returns None |} ];
             close := Returns tt |}.

(** A document whose second page cannot be read. *)
Definition damaged_pdf : upload :=
  Returns {| pages := Returns [ {| extract_text := Returns (Some (py "Jane Doe")) |};
                                {| extract_text := Raises |} ];
             close := Returns tt |}.

End PdfSpec.

Module GatewaySpec.
Import Gateway.

Definition modes : list str :=
  map py ["review"; "optimize"; "score"; "fit"; "design"; "translate"]%string.

(** A call that sent exactly one prompt, [rendered], to the remote model
    and returned what the model gave. *)
Definition sent (model : str -> outcome str) (rendered : str)
  : outcome str * list str :=
  (model rendered, [rendered]).

(** The prompt of the templates that take a job description and a resume:
    the opening lines, then the two texts under their headings. *)
Definition job_and_resume (opening : list string) (job_desc resume_text : pyval)
  : str :=
  lines (py "" :: map py opening
           ++ [py ""; py "    Job Description:"; py "    "])
  ++ py_str job_desc
  ++ lines [py ""; py ""; py "    Resume:"; py "    "]
  ++ py_str resume_text
  ++ lines [py ""; py "    "].

(** The prompt of the template that takes a resume only. *)
Definition resume_only (opening : list string) (resume_text : pyval) : str :=
  lines (py "" :: map py opening ++ [py ""; py "    Resume:"; py "    "])
  ++ py_str resume_text
  ++ lines [py ""; py "    "].

(** The prompt of the translation template. *)
Definition resume_into (language resume_text : pyval) : str :=
  lines [py ""; py "    Translate or rewrite this resume into "]
  ++ py_str language
  ++ lines [py ", ";
            py "    ensuring it remains professional and ATS-friendly.";
            py "";
            py "    Resume:";
            py "    "]
  ++ py_str resume_text
  ++ lines [py ""; py "    "].

End GatewaySpec.

(* ------------------------------------------------------------------ *)
(** ** The page *)

Module Page.
Import Pdf Gateway.

(** [sep.join(l)] *)
Fixpoint join (sep : str) (l : list str) : str :=
  match l with
  | [] => []
  | [x] => x
  | x :: l' => x ++ sep ++ join sep l'
  end.

(** Line 242: the options of the select box. *)
Inductive language : Type :=
| French | Spanish | German | Hindi | Japanese | Marathi.

Definition label (lang : language) : str :=
  match lang with
  | French => py "French"
  | Spanish => py "Spanish"
  | German => py "German"
  | Hindi => py "Hindi"
  | Japanese => py "Japanese"
  | Marathi => py "Marathi"
  end.

(** The buttons of the six tabs, lines 192-243. *)
Inductive button : Type :=
| RunReview
| RunOptimization
| GetATSScore
| GetJobFitScore
| AnalyzeKeywordCoverage
| GetResumeDesignSuggestions
| TranslateResume.

(** What one run of the script does after the two input widgets: nothing
    more without a file; the extraction error and stop; the tabs alone when
    no button is pressed; the call of the model for six of the buttons, with
    its result and the prompts sent; for the keyword button, the two lists
    joined for display (the text after the label of each line) and the
    values of the pie chart. *)
Inductive shown : Type :=
| AwaitingUpload
| ExtractionFailed
| TabsOnly
| ModelResult (result : outcome str * list str)
| KeywordChart (matched_keywords missing_keywords : str) (values : list nat).

Section Run.

Context {order : SetOrder}.
Variable model : str -> outcome str.

(** Lines 174-246.  [job_desc] is the text area, [upload_file] the uploaded
    file if there is one, [lang] the choice of the select box, [pressed] the
    button that triggered the run, if any. *)
Definition page (job_desc : str) (upload_file : option upload)
    (lang : language) (pressed : option button) : shown :=
  match upload_file with
  | None => AwaitingUpload
  | Some upload_file =>
      match on_upload upload_file with
      | ExtractionError => ExtractionFailed
      | Proceed resume_text =>
          match pressed with
          | None => TabsOnly
          | Some RunReview =>
              ModelResult (get_model_response model
                (PStr job_desc) (PStr resume_text) (py "review") PNone)
          | Some RunOptimization =>
              ModelResult (get_model_response model
                (PStr job_desc) (PStr resume_text) (py "optimize") PNone)
          | Some GetATSScore =>
              ModelResult (get_model_response model
                (PStr job_desc) (PStr resume_text) (py "score") PNone)
          | Some GetJobFitScore =>
              ModelResult (get_model_response model
                (PStr job_desc) (PStr resume_text) (py "fit") PNone)
          | Some AnalyzeKeywordCoverage =>
              let (matched, missing) := keyword_coverage job_desc resume_text in
              KeywordChart (join (py ", ") matched) (join (py ", ") missing)
                           [List.length matched; List.length missing]
          | Some GetResumeDesignSuggestions =>
              ModelResult (get_model_response model
                PNone (PStr resume_text) (py "design") PNone)
          | Some TranslateResume =>
              ModelResult (get_model_response model
                PNone (PStr resume_text) (py "translate") (PStr (label lang)))
          end
      end
  end.

End Run.

End Page.

(* ------------------------------------------------------------------ *)
(** ** Further vocabulary *)

(** The page texts that the extraction loop keeps: those that are neither
    [None] nor empty, each followed by a newline. *)
Fixpoint kept_lines (texts : list (option str)) : list str :=
  match texts with
  | [] => []
  | Some (c :: t) :: texts' => ((c :: t) ++ [Pdf.newline]) :: kept_lines texts'
  | _ :: texts' => kept_lines texts'
  end.

(** A document of two pages with text and one without. *)
Definition three_pages : Pdf.upload :=
  Returns {| Pdf.pages := Returns
               [ {| Pdf.extract_text := Returns (Some (py " Jane Doe")) |};
                 {| Pdf.extract_text := Returns None |};
                 {| Pdf.extract_text := Returns (Some (py "Python, SQL ")) |} ];
             Pdf.close := Returns tt |}.

Definition all_space (s : str) : Prop := forallb is_space s = true.

Definition total_len (l : list str) : nat := list_sum (map len l).

Definition space_at (c : option ascii) : bool :=
  match c with
  | Some c => is_space c
  | None => false
  end.

(** No whitespace at the start of [s] nor at its end. *)
Definition trimmed (s : str) : Prop :=
  space_at (hd_error s) = false /\ space_at (last_error s) = false.

(* ------------------------------------------------------------------ *)
(** * Properties *)

Unset Implicit Arguments.

Example findall_ex :
  Re.findall (py "Go, C++ and SQL_2!") = map py ["Go"; "C"; "and"; "SQL_2"]%string.
Proof. reflexivity. Qed.

Example split_ex :
  split (py "  skills, in SQL ") = map py ["skills,"; "in"; "SQL"]%string.
Proof. reflexivity. Qed.

Example coverage_ex :
  @keyword_coverage last_seen_order
    (py "I am a Go developer with SQL skills")
    (py "Experienced developer skilled in SQL and Go")
  = (map py ["developer"]%string, map py ["with"; "skills"]%string).
Proof. vm_compute. reflexivity. Qed.

(** ** The regular expression *)

Section Findall.
Import Re.

Lemma match_run_not_word (s : str) :
  word_at (hd_error s) = false -> match_run s = None.
Proof.
  destruct s as [|c s]; simpl; [reflexivity|]. now intros ->.
Qed.

Lemma match_run_word (c : ascii) (s : str) :
  is_word c = true ->
  exists m rest,
    match_run (c :: s) = Some (c :: m, rest) /\
    c :: s = (c :: m) ++ rest /\
    Forall (fun x => is_word x = true) (c :: m) /\
    word_at (hd_error rest) = false.
Proof.
  revert c. induction s as [|c' s IH]; intros c Hc.
  - exists [], []. simpl. rewrite Hc. unfold at_boundary. simpl. rewrite Hc.
    repeat split. now constructor.
  - destruct (is_word c') eqn:Hc'.
    + destruct (IH c' Hc') as (m & rest & Hm & Hs & Hw & Hr).
      exists (c' :: m), rest. simpl in *. rewrite Hc, Hc' in *.
      rewrite Hm. repeat split; trivial.
      * now rewrite Hs.
      * now constructor.
    + exists [], (c' :: s).
      simpl. rewrite Hc, Hc'. unfold at_boundary. simpl. rewrite Hc, Hc'.
      repeat split; trivial. now constructor.
Qed.

Lemma last_error_app (pre a : str) :
  a <> [] -> last_error (pre ++ a) = last_error a.
Proof.
  intro Ha. induction pre as [|x pre IH]; simpl; [reflexivity|].
  rewrite IH. destruct (pre ++ a) eqn:E; [|reflexivity].
  apply app_eq_nil in E. tauto.
Qed.

Lemma last_error_last (a : str) (x d : ascii) :
  last_error (x :: a) = Some (last (x :: a) d).
Proof.
  revert x. induction a as [|y a IH]; intro x; [reflexivity|].
  change (last_error (y :: a) = Some (last (y :: a) d)). apply IH.
Qed.

(** Two stretches of word characters that start at the same place and
    cannot be extended are the same stretch. *)
Lemma word_prefix_unique (t b m rest : str) :
  t ++ b = m ++ rest ->
  Forall (fun x => is_word x = true) t ->
  Forall (fun x => is_word x = true) m ->
  word_at (hd_error b) = false ->
  word_at (hd_error rest) = false ->
  t = m /\ b = rest.
Proof.
  revert m. induction t as [|x t IH]; intros m E Ht Hm Hb Hr.
  - destruct m as [|y m]; [now split|].
    simpl in E. subst b. simpl in Hb. inversion Hm. congruence.
  - destruct m as [|y m].
    + simpl in E. subst rest. simpl in Hr. inversion Ht. congruence.
    + simpl in E. injection E as -> E.
      inversion Ht; inversion Hm; subst.
      destruct (IH m E) as [-> ->]; auto.
Qed.

(** A prefix that ends in a non-word character reaches past a stretch of
    word characters at the start. *)
Lemma prefix_past_run (a x m rest : str) :
  a ++ x = m ++ rest ->
  Forall (fun c => is_word c = true) m ->
  a <> [] ->
  word_at (last_error a) = false ->
  exists a', a = m ++ a' /\ rest = a' ++ x.
Proof.
  revert a. induction m as [|c m IH]; intros a E Hm Ha Hl.
  - exists a. now split.
  - destruct a as [|c' a]; [contradiction|].
    simpl in E. injection E as -> E. inversion Hm; subst.
    destruct a as [|c'' a].
    + simpl in Hl. congruence.
    + destruct (IH (c'' :: a) E) as (a' & -> & ->); trivial; [discriminate|].
      now exists a'.
Qed.

Lemma run_head (c : ascii) (s t b : str) :
  c :: s = t ++ b -> t <> [] ->
  Forall (fun c => is_word c = true) t ->
  is_word c = true.
Proof.
  intros E Ht Hw. destruct t as [|x t]; [contradiction|].
  simpl in E. injection E as -> _. now inversion Hw.
Qed.

Lemma findall_from_cons (fuel : nat) (prev : option ascii) (c : ascii) (s : str) :
  findall_from (S fuel) prev (c :: s)
  = if at_boundary prev (Some c) then
      match match_run (c :: s) with
      | Some (m, rest) => m :: findall_from fuel (Some (last m c)) rest
      | None => findall_from fuel (Some c) s
      end
    else findall_from fuel (Some c) s.
Proof. reflexivity. Qed.

Lemma findall_from_runs (fuel : nat) :
  forall (s pre t : str),
    len s <= fuel ->
    (In t (findall_from fuel (last_error pre) s)
     <-> exists a b,
           s = a ++ t ++ b /\
           t <> [] /\
           Forall (fun c => is_word c = true) t /\
           word_at (last_error (pre ++ a)) = false /\
           word_at (hd_error b) = false).
Proof.
  induction fuel as [|fuel IH]; intros s pre t Hlen.
  - destruct s; [|simpl in Hlen; lia]. simpl. split; [tauto|].
    intros (a & b & E & Ht & _). symmetry in E.
    apply app_eq_nil in E. destruct E as [_ E].
    apply app_eq_nil in E. tauto.
  - destruct s as [|c s].
    { simpl. split; [tauto|].
      intros (a & b & E & Ht & _). symmetry in E.
      apply app_eq_nil in E. destruct E as [_ E].
      apply app_eq_nil in E. tauto. }
    assert (Hskip :
      In t (findall_from fuel (Some c) s)
      <-> exists a b,
            s = a ++ t ++ b /\ t <> [] /\
            Forall (fun c => is_word c = true) t /\
            word_at (last_error (pre ++ c :: a)) = false /\
            word_at (hd_error b) = false).
    { replace (Some c) with (last_error (pre ++ [c]))
        by (rewrite last_error_app; [reflexivity | discriminate]).
      rewrite IH by (simpl in Hlen; unfold len in *; lia).
      split; intros (a & b & H); exists a, b;
        now rewrite <- app_assoc in *. }
    rewrite findall_from_cons.
    destruct (is_word c) eqn:Hc.
    + (* a word character *)
      destruct (match_run_word c s Hc) as (m & rest & Hm & Hs & Hw & Hr).
      unfold at_boundary. simpl word_at. rewrite Hc.
      destruct (word_at (last_error pre)) eqn:Hp; simpl xorb.
      * (* inside a run that began earlier *)
        rewrite Hskip. split.
        -- intros (a & b & E & H). exists (c :: a), b. now rewrite E.
        -- intros (a & b & E & Ht & Hw' & Hl & Hb).
           destruct a as [|c' a].
           ++ rewrite app_nil_r in Hl. congruence.
           ++ simpl in E. injection E as <- E. now exists a, b.
      * (* the start of a run *)
        rewrite Hm.
        replace (Some (last (c :: m) c)) with (last_error (pre ++ c :: m))
          by (rewrite last_error_app by discriminate; apply last_error_last).
        set (found := findall_from fuel (last_error (pre ++ c :: m)) rest).
        change (In t ((c :: m) :: found)) with (c :: m = t \/ In t found).
        subst found.
        assert (Hrest : len rest <= fuel).
        { apply (f_equal (@List.length ascii)) in Hs.
          rewrite length_app in Hs. simpl in Hs, Hlen. unfold len in *. lia. }
        rewrite (IH rest (pre ++ c :: m) t Hrest). split.
        -- intros [<- | (a & b & E & H)].
           ++ exists [], rest. rewrite app_nil_r.
              repeat split; trivial. discriminate.
           ++ destruct H as (Ht & Hw' & Hl & Hb).
              exists ((c :: m) ++ a), b. split.
              { rewrite Hs, E. now rewrite app_assoc. }
              repeat split; trivial. now rewrite app_assoc.
        -- intros (a & b & E & Ht & Hw' & Hl & Hb).
           destruct a as [|c' a].
           ++ left. simpl in E. rewrite Hs in E. symmetry in E.
              destruct (word_prefix_unique _ _ _ _ E Hw' Hw Hb Hr) as [-> _].
              reflexivity.
           ++ right. rewrite last_error_app in Hl by discriminate.
              rewrite Hs in E. symmetry in E.
              destruct (prefix_past_run _ _ _ _ E Hw) as (a' & Ea & Er);
                [discriminate | exact Hl |].
              exists a', b.
              split; [exact Er|]. split; [exact Ht|]. split; [exact Hw'|].
              split; [|exact Hb].
              destruct a' as [|y a'].
              ** exfalso. simpl in Er. subst rest.
                 destruct t as [|x t]; [contradiction|].
                 simpl in Hr. inversion Hw'. congruence.
              ** rewrite Ea in Hl.
                 rewrite last_error_app in Hl by discriminate.
                 rewrite last_error_app by discriminate.
                 exact Hl.
    + (* not a word character *)
      assert (Hno : match_run (c :: s) = None)
        by (apply match_run_not_word; exact Hc).
      rewrite Hno.
      assert (G : In t (findall_from fuel (Some c) s)
                  <-> exists a b,
                        c :: s = a ++ t ++ b /\ t <> [] /\
                        Forall (fun c => is_word c = true) t /\
                        word_at (last_error (pre ++ a)) = false /\
                        word_at (hd_error b) = false).
      { rewrite Hskip. split.
        - intros (a & b & E & H). exists (c :: a), b. now rewrite E.
        - intros (a & b & E & Ht & Hw' & Hl & Hb).
          destruct a as [|c' a].
          + simpl in E. rewrite (run_head _ _ _ _ E Ht Hw') in Hc. discriminate.
          + simpl in E. injection E as <- E. now exists a, b. }
      destruct (at_boundary (last_error pre) (Some c)); exact G.
Qed.

(** [re.findall] with the pattern of the program returns the maximal runs
    of word characters, and only them. *)
Lemma findall_MaximalRun (s t : str) : In t (findall s) <-> MaximalRun s t.
Proof.
  unfold findall, MaximalRun.
  change None with (last_error []).
  rewrite findall_from_runs by reflexivity. reflexivity.
Qed.

End Findall.

Lemma lower_char_idempotent (c : ascii) : lower_char (lower_char c) = lower_char c.
Proof. destruct c as [[] [] [] [] [] [] [] []]; reflexivity. Qed.

Lemma lower_fixed (s : str) :
  Forall (fun c => lower_char c = c) s -> lower s = s.
Proof.
  induction 1 as [|c s Hc _ IH]; simpl; [reflexivity|].
  now rewrite Hc, IH.
Qed.

Lemma MaximalRun_lower (j t : str) : MaximalRun (lower j) t -> lower t = t.
Proof.
  intros (a & b & E & _). apply lower_fixed, Forall_forall. intros c Hc.
  assert (H : In c (lower j)).
  { rewrite E. apply in_or_app. right. apply in_or_app. now left. }
  unfold lower in H. apply in_map_iff in H. destruct H as (x & <- & _).
  apply lower_char_idempotent.
Qed.

(** ** Lists *)

Lemma fold_comprehension (p : str -> bool) (l acc : list str) :
  fold_left (fun acc x => if p x then acc ++ [x] else acc) l acc
  = acc ++ filter p l.
Proof.
  revert acc. induction l as [|x l IH]; intros acc; simpl.
  - now rewrite app_nil_r.
  - rewrite IH. destruct (p x); [|reflexivity].
    now rewrite <- app_assoc.
Qed.

Lemma comprehension_filter (p : str -> bool) (l : list str) :
  comprehension p l = filter p l.
Proof. unfold comprehension. now rewrite fold_comprehension. Qed.

Lemma contains_In (l : list str) (x : str) : contains l x = true <-> In x l.
Proof.
  induction l as [|y l IH]; simpl.
  - split; [discriminate | tauto].
  - destruct (str_eq_dec x y) as [->|Hne].
    + tauto.
    + rewrite IH. split; [tauto|]. intros [H|H]; [congruence | exact H].
Qed.

Lemma contains_mem (l : list str) (x : str) : contains l x = mem l x.
Proof.
  unfold mem. destruct (in_dec str_eq_dec x l) as [H|H].
  - now apply contains_In.
  - destruct (contains l x) eqn:E; [|reflexivity].
    apply contains_In in E. contradiction.
Qed.

Lemma filter_Subseq {A : Type} (p : A -> bool) (l : list A) :
  Subseq (filter p l) l.
Proof.
  induction l as [|x l IH]; simpl.
  - constructor.
  - destruct (p x); now constructor.
Qed.

Lemma filter_split_Permutation {A : Type} (p : A -> bool) (l : list A) :
  Permutation (filter p l ++ filter (fun x => negb (p x)) l) l.
Proof.
  induction l as [|x l IH]; simpl.
  - constructor.
  - destruct (p x); simpl.
    + now constructor.
    + symmetry. apply Permutation_cons_app. now symmetry.
Qed.

Lemma list_of_set_nil {O : SetOrder} : list_of_set [] = [].
Proof.
  destruct (list_of_set []) as [|x l] eqn:E; [reflexivity|].
  exfalso. apply (proj1 (list_of_set_In [] x)). rewrite E. now left.
Qed.

(** ** Keyword coverage *)

Section CoverageFacts.

Context {O : SetOrder}.

Lemma matched_filter (j r : str) :
  fst (keyword_coverage j r) = filter (mem (resume_words r)) (jd_keywords j).
Proof.
  unfold keyword_coverage; simpl. rewrite comprehension_filter.
  apply filter_ext. intro kw. apply contains_mem.
Qed.

Lemma missing_filter (j r : str) :
  snd (keyword_coverage j r)
  = filter (fun kw => negb (mem (resume_words r) kw)) (jd_keywords j).
Proof.
  unfold keyword_coverage; simpl. rewrite comprehension_filter.
  apply filter_ext. intro kw. now rewrite contains_mem.
Qed.

Lemma coverage_Permutation (j r : str) :
  Permutation (fst (keyword_coverage j r) ++ snd (keyword_coverage j r))
              (jd_keywords j).
Proof.
  rewrite matched_filter, missing_filter. apply filter_split_Permutation.
Qed.

Lemma jd_keywords_NoDup (j : str) : NoDup (jd_keywords j).
Proof. apply list_of_set_NoDup. Qed.

Lemma In_matched (j r kw : str) :
  In kw (fst (keyword_coverage j r))
  <-> In kw (jd_keywords j) /\ In kw (resume_words r).
Proof.
  rewrite matched_filter, filter_In. unfold mem.
  destruct (in_dec str_eq_dec kw (resume_words r)); intuition congruence.
Qed.

Lemma In_missing (j r kw : str) :
  In kw (snd (keyword_coverage j r))
  <-> In kw (jd_keywords j) /\ ~ In kw (resume_words r).
Proof.
  rewrite missing_filter, filter_In. unfold mem.
  destruct (in_dec str_eq_dec kw (resume_words r)); simpl; intuition congruence.
Qed.

End CoverageFacts.

(** C1: the two sequences returned by keyword_coverage split the
    deduplicated keyword list: a string is a keyword exactly when it is in
    one of them, no string is in both, and every keyword occurs exactly once
    in the two sequences taken together. *)
Theorem keyword_coverage_partition {O : SetOrder} (job_desc resume_text : str) :
  let matched := fst (keyword_coverage job_desc resume_text) in
  let missing := snd (keyword_coverage job_desc resume_text) in
  (forall kw, In kw (jd_keywords job_desc) <-> In kw matched \/ In kw missing) /\
  (forall kw, ~ (In kw matched /\ In kw missing)) /\
  (forall kw, In kw (jd_keywords job_desc) ->
     count_occ str_eq_dec matched kw + count_occ str_eq_dec missing kw = 1).
Proof.
  intros matched missing. subst matched missing.
  split; [|split].
  - intro kw. rewrite In_matched, In_missing.
    destruct (in_dec str_eq_dec kw (resume_words resume_text)); tauto.
  - intro kw. rewrite In_matched, In_missing. tauto.
  - intros kw H. rewrite <- count_occ_app.
    rewrite (proj1 (Permutation_count_occ str_eq_dec _ _)
               (coverage_Permutation job_desc resume_text)).
    apply NoDup_count_occ'; [apply jd_keywords_NoDup | exact H].
Qed.

Lemma jd_keywords_In {O : SetOrder} (j w : str) :
  In w (jd_keywords j)
  <-> In w (filter (fun word => 3 <? len word) (Re.findall (lower j))).
Proof.
  unfold jd_keywords. now rewrite list_of_set_In, comprehension_filter.
Qed.

(** The iteration order of the set decides the order of the keywords and
    nothing else. *)
Lemma jd_keywords_any_order (O1 O2 : SetOrder) (j : str) :
  Permutation (@jd_keywords O1 j) (@jd_keywords O2 j).
Proof.
  apply NoDup_Permutation; try apply jd_keywords_NoDup.
  intro w. now rewrite !jd_keywords_In.
Qed.

Lemma matched_any_order (O1 O2 : SetOrder) (j r : str) :
  Permutation (fst (@keyword_coverage O1 j r)) (fst (@keyword_coverage O2 j r)).
Proof.
  apply NoDup_Permutation.
  - rewrite matched_filter. apply NoDup_filter, jd_keywords_NoDup.
  - rewrite matched_filter. apply NoDup_filter, jd_keywords_NoDup.
  - intro w. now rewrite !In_matched, !jd_keywords_In.
Qed.

Lemma missing_any_order (O1 O2 : SetOrder) (j r : str) :
  Permutation (snd (@keyword_coverage O1 j r)) (snd (@keyword_coverage O2 j r)).
Proof.
  apply NoDup_Permutation.
  - rewrite missing_filter. apply NoDup_filter, jd_keywords_NoDup.
  - rewrite missing_filter. apply NoDup_filter, jd_keywords_NoDup.
  - intro w. now rewrite !In_missing, !jd_keywords_In.
Qed.

(** C2: the keywords are exactly the maximal runs of word characters of the
    lowercased job description that are longer than 3 characters, each
    listed once; so every element of the two output sequences is lowercase,
    longer than 3 characters, and occurs at most once. *)
Theorem jd_keywords_maximal_runs {O : SetOrder} (job_desc resume_text : str) :
  let outputs := fst (keyword_coverage job_desc resume_text)
                 ++ snd (keyword_coverage job_desc resume_text) in
  (forall w, In w (jd_keywords job_desc)
             <-> MaximalRun (lower job_desc) w /\ 3 < len w) /\
  NoDup (jd_keywords job_desc) /\
  (forall w, In w outputs -> lower w = w /\ 3 < len w) /\
  (forall w, count_occ str_eq_dec outputs w <= 1).
Proof.
  cbv zeta.
  assert (K : forall w, In w (jd_keywords job_desc)
                        <-> MaximalRun (lower job_desc) w /\ 3 < len w).
  { intro w.
    now rewrite jd_keywords_In, filter_In, findall_MaximalRun, Nat.ltb_lt. }
  pose proof (coverage_Permutation job_desc resume_text) as P.
  split; [exact K|]. split; [apply jd_keywords_NoDup|]. split.
  - intros w H. apply (Permutation_in _ P), K in H.
    destruct H as [H L]. split; [|exact L].
    exact (MaximalRun_lower _ _ H).
  - apply NoDup_count_occ.
    apply (Permutation_NoDup (Permutation_sym P)), jd_keywords_NoDup.
Qed.

(** C5: on the empty job description keyword_coverage returns two empty
    sequences, whatever the resume. *)
Theorem keyword_coverage_empty_job_desc {O : SetOrder} (resume_text : str) :
  keyword_coverage (py "") resume_text = ([], []).
Proof.
  assert (K : jd_keywords (py "") = []).
  { unfold jd_keywords. simpl. apply list_of_set_nil. }
  unfold keyword_coverage. rewrite K. reflexivity.
Qed.

(** C6: matched is the keyword list filtered, in its order, by membership in
    the whitespace-split lowercased resume, missing is the keyword list
    filtered, in its order, by the opposite test; both are subsequences of
    the keyword list. *)
Theorem keyword_coverage_keeps_order {O : SetOrder} (job_desc resume_text : str) :
  let keywords := jd_keywords job_desc in
  let tokens := split (lower resume_text) in
  let matched := fst (keyword_coverage job_desc resume_text) in
  let missing := snd (keyword_coverage job_desc resume_text) in
  matched = filter (fun kw => mem tokens kw) keywords /\
  missing = filter (fun kw => negb (mem tokens kw)) keywords /\
  Subseq matched keywords /\
  Subseq missing keywords.
Proof.
  cbv zeta.
  rewrite matched_filter, missing_filter. unfold resume_words.
  repeat split; apply filter_Subseq.
Qed.

(** C10: for one job description and two resumes, the matched and missing
    sequences taken together hold the same keywords the same number of
    times, also when the two calls iterate the set in different orders. *)
Theorem keyword_coverage_resume_independent
    (O1 O2 : SetOrder) (job_desc resume1 resume2 : str) :
  Permutation
    (fst (@keyword_coverage O1 job_desc resume1)
       ++ snd (@keyword_coverage O1 job_desc resume1))
    (fst (@keyword_coverage O2 job_desc resume2)
       ++ snd (@keyword_coverage O2 job_desc resume2)).
Proof.
  rewrite !coverage_Permutation. apply jd_keywords_any_order.
Qed.

(** C4, as the code has it: for the job description
    "I am a Go developer with SQL skills" and the resume
    "Experienced developer skilled in SQL and Go", the keywords are exactly
    "developer", "with" and "skills" ("i", "am", "a", "go" and "sql" are not
    keywords), matched is exactly "developer", and missing holds exactly
    "with" and "skills". *)
Theorem keyword_coverage_go_developer {O : SetOrder} :
  let job_desc := py "I am a Go developer with SQL skills" in
  let resume_text := py "Experienced developer skilled in SQL and Go" in
  (forall w, In w (jd_keywords job_desc)
             <-> In w (map py ["developer"; "with"; "skills"]%string)) /\
  Forall (fun w => ~ In w (jd_keywords job_desc))
         (map py ["i"; "am"; "a"; "go"; "sql"]%string) /\
  fst (keyword_coverage job_desc resume_text) = [py "developer"] /\
  Permutation (snd (keyword_coverage job_desc resume_text))
              (map py ["with"; "skills"]%string).
Proof.
  cbv zeta.
  assert (K : forall w, In w (jd_keywords (py "I am a Go developer with SQL skills"))
                        <-> In w (map py ["developer"; "with"; "skills"]%string)).
  { intro w. rewrite jd_keywords_In. vm_compute (filter _ _). reflexivity. }
  split; [exact K|]. split; [|split].
  - repeat constructor; rewrite K; simpl; intuition discriminate.
  - apply Permutation_length_1_inv. symmetry.
    exact (matched_any_order O last_seen_order _ _).
  - exact (missing_any_order O last_seen_order _ _).
Qed.

(** C4, as the specification has it, fails: in no iteration order is "sql"
    a keyword of that job description or one of the matched keywords. *)
Lemma keyword_coverage_go_developer_sql :
  ~ (exists O : SetOrder,
       In (py "sql") (@jd_keywords O (py "I am a Go developer with SQL skills"))
       \/ In (py "sql")
             (fst (@keyword_coverage O
                     (py "I am a Go developer with SQL skills")
                     (py "Experienced developer skilled in SQL and Go")))).
Proof.
  intros [O H].
  assert (K : ~ In (py "sql")
                (@jd_keywords O (py "I am a Go developer with SQL skills"))).
  { rewrite jd_keywords_In. vm_compute. intuition discriminate. }
  destruct H as [H|H]; [exact (K H)|].
  apply In_matched in H. exact (K (proj1 H)).
Qed.

(** ** PDF text extraction *)

Section Extraction.
Import Pdf PdfSpec.

Lemma lstrip_nil (s : str) : lstrip s = [] <-> forallb is_space s = true.
Proof.
  induction s as [|c s IH]; simpl.
  - tauto.
  - destruct (is_space c); simpl; [exact IH|].
    split; discriminate.
Qed.

Lemma lstrip_spaces (s : str) :
  forallb is_space (lstrip s) = true -> forallb is_space s = true.
Proof.
  induction s as [|c s IH]; simpl; [trivial|].
  destruct (is_space c) eqn:E; simpl.
  - exact IH.
  - rewrite E. discriminate.
Qed.

Lemma forallb_rev {A : Type} (p : A -> bool) (l : list A) :
  forallb p (rev l) = forallb p l.
Proof.
  induction l as [|x l IH]; simpl; [reflexivity|].
  rewrite forallb_app, IH. simpl. rewrite andb_true_r. apply andb_comm.
Qed.

Lemma strip_nil (s : str) : strip s = [] <-> forallb is_space s = true.
Proof.
  unfold strip, rstrip. split.
  - intro H. apply (f_equal (@rev ascii)) in H. rewrite rev_involutive in H.
    simpl in H. apply lstrip_nil in H. rewrite forallb_rev in H.
    now apply lstrip_spaces.
  - intro H. apply lstrip_nil in H. rewrite H. reflexivity.
Qed.

Lemma extract_pages_raises (ps : list page) (text : str) :
  extract_pages ps text = Raises <-> Exists page_raises ps.
Proof.
  revert text. induction ps as [|p ps IH]; intro text; simpl.
  - split; [discriminate | intro H; inversion H].
  - rewrite Exists_cons. unfold page_raises.
    destruct (extract_text p) as [[t|]|]; simpl.
    + destruct t; rewrite IH; intuition discriminate.
    + rewrite IH; intuition discriminate.
    + tauto.
Qed.

Lemma extract_pages_spaces (ps : list page) (text out : str) :
  extract_pages ps text = Returns out ->
  (forallb is_space out = true
   <-> forallb is_space text = true /\ Forall page_blank ps).
Proof.
  revert text. induction ps as [|p ps IH]; intros text; simpl.
  - intros [= ->]. intuition.
  - rewrite Forall_cons_iff. unfold page_blank at 1.
    destruct (extract_text p) as [[t|]|] eqn:E; simpl; [| |discriminate].
    + destruct t as [|c t]; intro H; apply IH in H; rewrite H; clear H.
      * split; [|tauto]. intros [? ?]. repeat split; trivial.
        now exists (Some []).
      * rewrite !forallb_app. simpl (forallb is_space [newline]).
        rewrite andb_true_r, andb_true_iff. split.
        -- intros [[? ?] ?]. repeat split; trivial. now exists (Some (c :: t)).
        -- intros [? [[t' [[= <-] ?]] ?]]. tauto.
    + intro H; apply IH in H; rewrite H; clear H.
      split; [|tauto]. intros [? ?]. repeat split; trivial. now exists None.
Qed.

Lemma extract_pdf_text_None (f : upload) :
  extract_pdf_text f = None <-> parse_raises f.
Proof.
  unfold extract_pdf_text, try_extract, parse_raises.
  destruct f as [pdf|]; simpl; [|tauto].
  destruct (pages pdf) as [ps|]; simpl; [|tauto].
  rewrite <- (extract_pages_raises ps []).
  destruct (extract_pages ps []) as [text|]; simpl; [|tauto].
  destruct (close pdf) as [[]|]; simpl; intuition discriminate.
Qed.

Lemma extract_pdf_text_empty (f : upload) :
  extract_pdf_text f = Some [] <-> no_text f.
Proof.
  unfold extract_pdf_text, try_extract, no_text.
  destruct f as [pdf|]; simpl; [|split; [discriminate|tauto]].
  destruct (pages pdf) as [ps|]; simpl; [|split; [discriminate|tauto]].
  destruct (extract_pages ps []) as [text|] eqn:E; simpl.
  - apply extract_pages_spaces in E. simpl in E.
    destruct (close pdf) as [[]|]; simpl; [|split; [discriminate|tauto]].
    rewrite <- (strip_nil text) in E. split.
    + intros [= H]. now apply E.
    + intro H. f_equal. apply E. tauto.
  - apply extract_pages_raises in E.
    split; [discriminate|].
    destruct (close pdf); [|tauto]. intro H. exfalso.
    apply Exists_exists in E. destruct E as [p [Hin Hp]].
    rewrite Forall_forall in H. destruct (H p Hin) as [t [Ht _]].
    unfold page_raises in Hp. congruence.
Qed.

End Extraction.

Section ExtractionClaims.
Import Pdf PdfSpec.

(** C7: when the underlying PDF parse raises, extract_pdf_text returns the
    failure signal None; the exception does not reach the caller. *)
Theorem extract_pdf_text_catches (uploaded_file : upload) :
  parse_raises uploaded_file -> extract_pdf_text uploaded_file = None.
Proof. apply extract_pdf_text_None. Qed.

Lemma extract_pdf_text_catches_damaged :
  parse_raises damaged_pdf /\ extract_pdf_text damaged_pdf = None.
Proof.
  assert (H : parse_raises damaged_pdf).
  { simpl. left. apply Exists_cons_tl, Exists_cons_hd. reflexivity. }
  split; [exact H | exact (extract_pdf_text_catches damaged_pdf H)].
Defined.

(** C3, as the specification has it, fails: for a scanned document, whose
    parse yields no text, extract_pdf_text returns the empty string to its
    caller and not the failure signal. *)
Lemma extract_pdf_text_scanned :
  no_text scanned_pdf /\ extract_pdf_text scanned_pdf = Some (py "").
Proof.
  split; [|reflexivity].
  simpl. constructor; [|constructor]. exists None. split; reflexivity.
Qed.

(** C3, as the code has it: extract_pdf_text returns None exactly when the
    parse raises and the empty string exactly when the parse yields no
    extractable text; its caller reports the extraction failure and stops
    exactly in these two cases, and otherwise goes on with a resume text that
    is not empty. *)
Theorem extraction_failure_reported (upload_file : upload) :
  (extract_pdf_text upload_file = None <-> parse_raises upload_file) /\
  (extract_pdf_text upload_file = Some [] <-> no_text upload_file) /\
  (on_upload upload_file = ExtractionError
   <-> parse_raises upload_file \/ no_text upload_file) /\
  (forall resume_text, on_upload upload_file = Proceed resume_text ->
     resume_text <> [] /\ extract_pdf_text upload_file = Some resume_text).
Proof.
  split; [apply extract_pdf_text_None|].
  split; [apply extract_pdf_text_empty|].
  rewrite <- extract_pdf_text_None, <- extract_pdf_text_empty.
  unfold on_upload.
  destruct (extract_pdf_text upload_file) as [[|c t]|]; simpl; split.
  - tauto.
  - discriminate.
  - split; [discriminate | intros [H|H]; discriminate H].
  - intros resume_text [= <-]. split; [discriminate | reflexivity].
  - tauto.
  - discriminate.
Qed.

Lemma extraction_failure_reported_scanned :
  no_text scanned_pdf /\ on_upload scanned_pdf = ExtractionError.
Proof.
  assert (H : no_text scanned_pdf).
  { simpl. constructor; [|constructor]. exists None. split; reflexivity. }
  split; [exact H|].
  apply (proj1 (proj2 (proj2 (extraction_failure_reported scanned_pdf)))).
  right. exact H.
Defined.

End ExtractionClaims.

(** ** The model call *)

Section GatewayClaims.
Import Gateway GatewaySpec.

Variable model : str -> outcome str.

Lemma chain_invoke_sent (p : PromptTemplate) (input : dict) (rendered : str) :
  prompt_invoke p input = Returns rendered ->
  chain_invoke model p input = sent model rendered.
Proof.
  unfold chain_invoke, sent, parser. intros ->.
  destruct (model rendered); reflexivity.
Qed.

Ltac decide_modes :=
  repeat match goal with
  | |- context [str_eq_dec ?a ?b] =>
      destruct (str_eq_dec a b) as [E|E];
      [ try (exfalso; vm_compute in E; discriminate E)
      | try (exfalso; apply E; reflexivity) ]
  end.

(** C8: for a mode that is none of review, optimize, score, fit, design and
    translate, get_model_response returns the string
    "Invalid mode selected!", sends nothing to the remote model and does
    not raise, whatever the other arguments. *)
Theorem get_model_response_invalid_mode
    (job_desc resume_text : pyval) (mode : str) (extra : pyval) :
  ~ In mode modes ->
  get_model_response model job_desc resume_text mode extra
  = (Returns (py "Invalid mode selected!"), []).
Proof.
  intro H. unfold get_model_response.
  repeat match goal with
  | |- context [str_eq_dec mode ?b] =>
      destruct (str_eq_dec mode b) as [E|_];
      [ exfalso; apply H; rewrite E; unfold modes; simpl; tauto | ]
  end.
  reflexivity.
Qed.

Lemma dispatch_general (job_desc resume_text extra : pyval) (mode : str)
    (p : PromptTemplate) (rendered : str) :
  In (mode, p)
     [ (py "review", review_prompt); (py "optimize", optimize_prompt);
       (py "score", score_prompt); (py "fit", fit_prompt);
       (py "design", design_prompt) ] ->
  prompt_invoke p [(py "job_desc", job_desc); (py "resume_text", resume_text)]
  = Returns rendered ->
  get_model_response model job_desc resume_text mode extra = sent model rendered.
Proof.
  intros Hin Hp. apply chain_invoke_sent in Hp.
  simpl in Hin.
  repeat (destruct Hin as [[= <- <-]|Hin];
          [unfold get_model_response; decide_modes; exact Hp|]).
  contradiction.
Qed.

Lemma dispatch_translate (job_desc resume_text extra : pyval) :
  get_model_response model job_desc resume_text (py "translate") extra
  = chain_invoke model translate_prompt
      [(py "resume_text", resume_text); (py "language", extra)].
Proof.
  unfold get_model_response; decide_modes. reflexivity.
Qed.

(** C9: in mode translate the prompt sent is the translation template with
    [language] replaced by the extra argument and [resume_text] by the resume
    text, so it does not depend on the job description; in the modes review,
    optimize, score and fit it is the template with [job_desc] and
    [resume_text] replaced; in mode design, with [resume_text] replaced
    only. *)
Theorem get_model_response_placeholders (job_desc resume_text extra : pyval) :
  get_model_response model job_desc resume_text (py "translate") extra
  = sent model (resume_into extra resume_text) /\
  (forall other_job_desc,
     get_model_response model other_job_desc resume_text (py "translate") extra
     = get_model_response model job_desc resume_text (py "translate") extra) /\
  get_model_response model job_desc resume_text (py "review") extra
  = sent model
      (job_and_resume
         [ "    You are an experienced HR Manager. ";
           "    Review the following resume against the job description. ";
           "    Highlight strengths and weaknesses clearly." ]%string
         job_desc resume_text) /\
  get_model_response model job_desc resume_text (py "optimize") extra
  = sent model
      (job_and_resume
         [ "    You are a career coach. ";
           "    Suggest concrete improvements to the resume so that it better matches the job description. ";
           "    Provide actionable bullet points." ]%string
         job_desc resume_text) /\
  get_model_response model job_desc resume_text (py "score") extra
  = sent model
      (job_and_resume
         [ "    You are an ATS (Applicant Tracking System). ";
           "    Score the resume on a scale of 1-100 against the job description. ";
           "    Also provide reasoning." ]%string
         job_desc resume_text) /\
  get_model_response model job_desc resume_text (py "fit") extra
  = sent model
      (job_and_resume
         [ "    You are a career advisor. ";
           "    Calculate the overall Job Fit Score (0-100) based on skills, experience, and job alignment.";
           "    Also explain why." ]%string
         job_desc resume_text) /\
  get_model_response model job_desc resume_text (py "design") extra
  = sent model
      (resume_only
         [ "    You are a professional resume designer. ";
           "    Suggest 3 modern ATS-friendly resume template styles and formatting tips ";
           "    (fonts, layout, sections, keywords). ";
           "    Keep suggestions concise and practical." ]%string
         resume_text) /\
  (forall other_job_desc,
     get_model_response model other_job_desc resume_text (py "design") extra
     = get_model_response model job_desc resume_text (py "design") extra).
Proof.
  assert (T : forall jd,
             get_model_response model jd resume_text (py "translate") extra
             = sent model (resume_into extra resume_text)).
  { intro jd. rewrite dispatch_translate. apply chain_invoke_sent.
    vm_compute. reflexivity. }
  assert (D : forall jd,
             get_model_response model jd resume_text (py "design") extra
             = sent model
                 (resume_only
                    [ "    You are a professional resume designer. ";
                      "    Suggest 3 modern ATS-friendly resume template styles and formatting tips ";
                      "    (fonts, layout, sections, keywords). ";
                      "    Keep suggestions concise and practical." ]%string
                    resume_text)).
  { intro jd. apply dispatch_general with (p := design_prompt);
      [simpl; tauto | vm_compute; reflexivity]. }
  split; [apply T|].
  split; [intro jd; now rewrite !T|].
  split; [apply dispatch_general with (p := review_prompt);
            [simpl; tauto | vm_compute; reflexivity]|].
  split; [apply dispatch_general with (p := optimize_prompt);
            [simpl; tauto | vm_compute; reflexivity]|].
  split; [apply dispatch_general with (p := score_prompt);
            [simpl; tauto | vm_compute; reflexivity]|].
  split; [apply dispatch_general with (p := fit_prompt);
            [simpl; tauto | vm_compute; reflexivity]|].
  split; [apply D|].
  intro jd. now rewrite !D.
Qed.

End GatewayClaims.

Lemma get_model_response_invalid_mode_summary :
  ~ In (py "summary") GatewaySpec.modes /\
  Gateway.get_model_response (fun _ => Raises)
    (Gateway.PStr (py "Go developer")) (Gateway.PStr (py "Jane Doe"))
    (py "summary") Gateway.PNone
  = (Returns (py "Invalid mode selected!"), []).
Proof.
  assert (H : ~ In (py "summary") GatewaySpec.modes).
  { vm_compute. intuition discriminate. }
  split; [exact H|].
  exact (get_model_response_invalid_mode (fun _ => Raises)
           (Gateway.PStr (py "Go developer")) (Gateway.PStr (py "Jane Doe"))
           (py "summary") Gateway.PNone H).
Defined.

(* ------------------------------------------------------------------ *)
(** * Further properties *)

(** ** Tokens of the resume *)

Lemma lower_idempotent (s : str) : lower (lower s) = lower s.
Proof.
  unfold lower. rewrite map_map. apply map_ext. apply lower_char_idempotent.
Qed.

Lemma is_space_lower_char (c : ascii) : is_space (lower_char c) = is_space c.
Proof. destruct c as [[] [] [] [] [] [] [] []]; reflexivity. Qed.

Lemma split_from_app (sp : ascii) (a b cur : str) :
  is_space sp = true ->
  split_from cur (a ++ sp :: b) = split_from cur a ++ split b.
Proof.
  intro Hsp. revert cur. induction a as [|c a IH]; intro cur; simpl.
  - rewrite Hsp. destruct cur; reflexivity.
  - destruct (is_space c).
    + destruct cur; rewrite IH; reflexivity.
    + apply IH.
Qed.

Lemma resume_words_app (sp : ascii) (r1 r2 : str) :
  is_space sp = true ->
  resume_words (r1 ++ sp :: r2) = resume_words r1 ++ resume_words r2.
Proof.
  intro Hsp. unfold resume_words, lower, split.
  rewrite map_app. simpl map. apply split_from_app.
  now rewrite is_space_lower_char.
Qed.

Lemma split_from_tokens (s cur : str) :
  Forall (fun c => is_space c = false) cur ->
  Forall (fun t => t <> [] /\ Forall (fun c => is_space c = false) t)
         (split_from cur s)
  /\ List.concat (split_from cur s) = cur ++ filter (fun c => negb (is_space c)) s.
Proof.
  revert cur. induction s as [|c s IH]; intros cur Hcur; simpl.
  - destruct cur as [|x cur]; simpl.
    + split; [constructor | reflexivity].
    + split; [|now rewrite !app_nil_r].
      constructor; [|constructor]. split; [discriminate | exact Hcur].
  - destruct (is_space c) eqn:Hc; simpl.
    + destruct (IH [] (Forall_nil _)) as [F C].
      destruct cur as [|x cur]; [now split|].
      split.
      * constructor; [|exact F]. split; [discriminate | exact Hcur].
      * simpl. now rewrite C.
    + destruct (IH (cur ++ [c])) as [F C].
      { apply Forall_app. split; [exact Hcur|]. now constructor. }
      split; [exact F|]. rewrite C. now rewrite <- app_assoc.
Qed.

Lemma split_from_nil (s cur : str) :
  split_from cur s = [] <-> cur = [] /\ forallb is_space s = true.
Proof.
  revert cur. induction s as [|c s IH]; intro cur; simpl.
  - destruct cur; split; try discriminate; intuition discriminate.
  - destruct (is_space c); simpl.
    + destruct cur as [|x cur].
      * rewrite IH. tauto.
      * split; [discriminate | intros [H _]; discriminate H].
    + rewrite IH. split; [|intros [_ H]; discriminate H].
      intros [H _]. destruct cur; discriminate H.
Qed.

(** X6: the tokens the resume is matched by are non-empty, free of
    whitespace and lowercase, and taken together, in order, they are the
    lowercased resume without its whitespace. *)
Theorem resume_words_tokens (resume_text : str) :
  Forall (fun t => t <> [] /\ Forall (fun c => is_space c = false) t
                   /\ lower t = t)
         (resume_words resume_text)
  /\ List.concat (resume_words resume_text)
     = filter (fun c => negb (is_space c)) (lower resume_text).
Proof.
  unfold resume_words, split.
  destruct (split_from_tokens (lower resume_text) [] (Forall_nil _)) as [F C].
  split; [|exact C].
  rewrite Forall_forall in *. intros t Ht.
  destruct (F t Ht) as [Hne Hsp]. repeat split; trivial.
  apply lower_fixed, Forall_forall. intros c Hc.
  assert (H : In c (List.concat (split_from [] (lower resume_text))))
    by (apply in_concat; now exists t).
  rewrite C in H. simpl in H. apply filter_In in H. destruct H as [H _].
  unfold lower in H. apply in_map_iff in H. destruct H as (x & <- & _).
  apply lower_char_idempotent.
Qed.

(** ** More on keyword coverage *)

Lemma jd_keywords_runs {O : SetOrder} (j w : str) :
  In w (jd_keywords j) <-> MaximalRun (lower j) w /\ 3 < len w.
Proof.
  now rewrite jd_keywords_In, filter_In, findall_MaximalRun, Nat.ltb_lt.
Qed.

(** X1: keyword coverage does not look at the case of its arguments:
    lowercasing the job description and the resume first changes nothing. *)
Theorem keyword_coverage_case_insensitive {O : SetOrder} (job_desc resume_text : str) :
  keyword_coverage (lower job_desc) (lower resume_text)
  = keyword_coverage job_desc resume_text.
Proof.
  unfold keyword_coverage, jd_keywords, resume_words.
  now rewrite !lower_idempotent.
Qed.

(** X2: against two texts joined by a whitespace character, a keyword is
    matched when it is matched against one of them, and missing when it is
    missing against both. *)
Theorem keyword_coverage_joined_resumes {O : SetOrder}
    (job_desc resume1 resume2 : str) (sp : ascii) :
  is_space sp = true ->
  forall kw,
    (In kw (fst (keyword_coverage job_desc (resume1 ++ sp :: resume2)))
     <-> In kw (fst (keyword_coverage job_desc resume1))
         \/ In kw (fst (keyword_coverage job_desc resume2))) /\
    (In kw (snd (keyword_coverage job_desc (resume1 ++ sp :: resume2)))
     <-> In kw (snd (keyword_coverage job_desc resume1))
         /\ In kw (snd (keyword_coverage job_desc resume2))).
Proof.
  intros Hsp kw. rewrite !In_matched, !In_missing.
  rewrite (resume_words_app sp resume1 resume2 Hsp), in_app_iff. tauto.
Qed.

Lemma keyword_coverage_joined_resumes_newline :
  is_space Pdf.newline = true /\
  (In (py "developer")
      (fst (@keyword_coverage last_seen_order (py "Go developer")
              (py "Jane Doe" ++ Pdf.newline :: py "Developer")))
   <-> In (py "developer")
          (fst (@keyword_coverage last_seen_order (py "Go developer") (py "Jane Doe")))
       \/ In (py "developer")
             (fst (@keyword_coverage last_seen_order (py "Go developer") (py "Developer")))).
Proof.
  split; [reflexivity|].
  exact (proj1 (@keyword_coverage_joined_resumes last_seen_order
                  (py "Go developer") (py "Jane Doe") (py "Developer")
                  Pdf.newline eq_refl (py "developer"))).
Defined.

(** X3: every matched keyword is a token of the resume that is made of word
    characters only; a string with a character that is not a word character
    (a token with a comma or a full stop attached) is never matched. *)
Theorem matched_word_characters {O : SetOrder} (job_desc resume_text : str) :
  (forall kw, In kw (fst (keyword_coverage job_desc resume_text)) ->
     In kw (resume_words resume_text)
     /\ Forall (fun c => is_word c = true) kw) /\
  (forall t, Exists (fun c => is_word c = false) t ->
     ~ In t (fst (keyword_coverage job_desc resume_text))).
Proof.
  assert (W : forall kw, In kw (fst (keyword_coverage job_desc resume_text)) ->
              Forall (fun c => is_word c = true) kw).
  { intros kw H. apply In_matched in H. destruct H as [H _].
    apply jd_keywords_runs in H. destruct H as [(a & b & _ & _ & F & _) _].
    exact F. }
  split.
  - intros kw H. split; [|now apply W]. apply In_matched in H. tauto.
  - intros t E H. apply W in H. apply Exists_exists in E.
    destruct E as (c & Hc & Hn). rewrite Forall_forall in H.
    rewrite (H c Hc) in Hn. discriminate.
Qed.

Lemma jd_keywords_nil_iff {O : SetOrder} (j : str) :
  jd_keywords j = [] <-> (forall w, MaximalRun (lower j) w -> len w <= 3).
Proof.
  split.
  - intros H w Hw. destruct (le_lt_dec (len w) 3) as [L|L]; [exact L|].
    exfalso.
    assert (K : In w (jd_keywords j)) by (apply jd_keywords_runs; tauto).
    rewrite H in K. exact K.
  - intro H. destruct (jd_keywords j) as [|w l] eqn:E; [reflexivity|].
    assert (Hw : In w (jd_keywords j)) by (rewrite E; now left).
    apply jd_keywords_runs in Hw. destruct Hw as [Hw L].
    apply H in Hw. lia.
Qed.

(** X5: both output sequences are empty exactly when the lowercased job
    description has no run of word characters longer than 3. *)
Theorem keyword_coverage_empty_iff {O : SetOrder} (job_desc resume_text : str) :
  keyword_coverage job_desc resume_text = ([], [])
  <-> (forall w, MaximalRun (lower job_desc) w -> len w <= 3).
Proof.
  rewrite <- jd_keywords_nil_iff. split.
  - intro H.
    pose proof (coverage_Permutation job_desc resume_text) as P.
    rewrite H in P. simpl in P.
    now apply Permutation_nil in P.
  - intro K. unfold keyword_coverage. rewrite K. reflexivity.
Qed.

Section Bound.
Import Re.

Lemma match_run_split (s m rest : str) :
  match_run s = Some (m, rest) -> s = m ++ rest.
Proof.
  revert m rest. induction s as [|c s IH]; intros m rest; simpl; [discriminate|].
  destruct (is_word c); [|discriminate].
  destruct (match_run s) as [[m' rest']|].
  - intros [= <- <-]. simpl. f_equal. now apply IH.
  - destruct (at_boundary (Some c) (hd_error s)); [|discriminate].
    now intros [= <- <-].
Qed.

Lemma findall_from_total (fuel : nat) :
  forall (prev : option ascii) (s : str),
    total_len (findall_from fuel prev s) <= len s.
Proof.
  unfold total_len, len.
  induction fuel as [|fuel IH]; intros prev s; [simpl; lia|].
  destruct s as [|c s]; [simpl; lia|].
  rewrite findall_from_cons.
  destruct (at_boundary prev (Some c)).
  - destruct (match_run (c :: s)) as [[m rest]|] eqn:E.
    + apply match_run_split in E. rewrite E, length_app. simpl.
      specialize (IH (Some (last m c)) rest). unfold len. lia.
    + specialize (IH (Some c) s). simpl. lia.
  - specialize (IH (Some c) s). simpl. lia.
Qed.

End Bound.

Lemma total_len_app (l1 l2 : list str) :
  total_len (l1 ++ l2) = total_len l1 + total_len l2.
Proof. unfold total_len. now rewrite map_app, list_sum_app. Qed.

Lemma NoDup_incl_total (l l' : list str) :
  NoDup l -> incl l l' -> total_len l <= total_len l'.
Proof.
  revert l'. induction l as [|x l IH]; intros l' N I.
  - unfold total_len. simpl. lia.
  - inversion N as [|? ? Hx N']; subst.
    destruct (in_split x l' (I x (or_introl eq_refl))) as (l1 & l2 & ->).
    assert (I' : incl l (l1 ++ l2)).
    { intros y Hy. specialize (I y (or_intror Hy)).
      apply in_app_or in I. apply in_or_app.
      destruct I as [I|[I|I]]; [now left | subst; contradiction | now right]. }
    specialize (IH _ N' I').
    rewrite total_len_app in *. unfold total_len in *. simpl. lia.
Qed.

Lemma total_len_long (l : list str) :
  Forall (fun w => 3 < len w) l -> 4 * List.length l <= total_len l.
Proof.
  unfold total_len. induction 1 as [|w l Hw _ IH]; simpl; lia.
Qed.

(** X4: the keywords are separate stretches of the job description, each
    longer than 3 characters: together they are no longer than the job
    description, so there are at most a quarter as many keywords as the
    job description has characters. *)
Theorem jd_keywords_bound {O : SetOrder} (job_desc : str) :
  total_len (jd_keywords job_desc) <= len job_desc /\
  4 * List.length (jd_keywords job_desc) <= len job_desc.
Proof.
  assert (T : total_len (jd_keywords job_desc) <= len job_desc).
  { transitivity (total_len (Re.findall (lower job_desc))).
    - apply NoDup_incl_total; [apply jd_keywords_NoDup|].
      intros w H. apply jd_keywords_In, filter_In in H. tauto.
    - unfold Re.findall.
      replace (len job_desc) with (len (lower job_desc))
        by (unfold len, lower; apply length_map).
      apply findall_from_total. }
  split; [exact T|].
  transitivity (total_len (jd_keywords job_desc)); [|exact T].
  apply total_len_long, Forall_forall. intros w H.
  apply jd_keywords_runs in H. tauto.
Qed.

(** ** More on the extraction *)

Section ExtractionFacts.
Import Pdf PdfSpec.

Lemma lstrip_split (s : str) :
  exists ws, s = ws ++ lstrip s /\ all_space ws.
Proof.
  unfold all_space. induction s as [|c s (ws & E & H)]; simpl.
  - now exists [].
  - destruct (is_space c) eqn:Hc.
    + exists (c :: ws). simpl. rewrite Hc, H. split; [now f_equal | reflexivity].
    + now exists [].
Qed.

Lemma lstrip_head (s : str) : space_at (hd_error (lstrip s)) = false.
Proof.
  induction s as [|c s IH]; simpl; [reflexivity|].
  destruct (is_space c) eqn:Hc; [exact IH | exact Hc].
Qed.

Lemma last_error_rev (s : str) : last_error (rev s) = hd_error s.
Proof.
  destruct s as [|c s]; [reflexivity|]. simpl.
  now rewrite last_error_app by discriminate.
Qed.

Lemma rstrip_split (s : str) :
  exists ws, s = rstrip s ++ ws /\ all_space ws.
Proof.
  unfold rstrip. destruct (lstrip_split (rev s)) as (ws & E & H).
  exists (rev ws). split.
  - rewrite <- rev_app_distr, <- E. now rewrite rev_involutive.
  - unfold all_space in *. now rewrite forallb_rev.
Qed.

Lemma rstrip_last (s : str) : space_at (last_error (rstrip s)) = false.
Proof. unfold rstrip. rewrite last_error_rev. apply lstrip_head. Qed.

(** [strip] takes whitespace off the two ends and nothing else. *)
Lemma strip_split (s : str) :
  exists ws1 ws2,
    s = ws1 ++ strip s ++ ws2 /\ all_space ws1 /\ all_space ws2.
Proof.
  unfold strip. destruct (lstrip_split s) as (ws1 & E1 & H1).
  destruct (rstrip_split (lstrip s)) as (ws2 & E2 & H2).
  exists ws1, ws2. repeat split; trivial. now rewrite <- E2.
Qed.

Lemma strip_trimmed (s : str) : trimmed (strip s).
Proof.
  unfold trimmed, strip. split; [|apply rstrip_last].
  destruct (rstrip_split (lstrip s)) as (ws & E & _).
  pose proof (lstrip_head s) as H. rewrite E in H.
  destruct (rstrip (lstrip s)); [reflexivity | exact H].
Qed.

Lemma extract_pages_kept (ps : list page) (texts : list (option str)) (text : str) :
  map extract_text ps = map (@Returns (option str)) texts ->
  extract_pages ps text = Returns (text ++ List.concat (kept_lines texts)).
Proof.
  revert texts text. induction ps as [|p ps IH]; intros texts text E.
  - destruct texts; [|discriminate]. simpl. now rewrite app_nil_r.
  - destruct texts as [|t texts]; [discriminate|].
    simpl in E. injection E as Ep E. simpl. rewrite Ep. simpl.
    destruct t as [[|c t]|]; simpl; rewrite (IH _ _ E); try reflexivity.
    f_equal. rewrite <- !app_assoc. simpl. now rewrite <- !app_assoc.
Qed.

(** X7: when nothing raises, extract_pdf_text returns the texts of the
    pages in page order, each followed by a newline, pages without text left
    out, with the whitespace at the two ends taken off and nothing else. *)
Theorem extract_pdf_text_pages (pdf : document) (ps : list page)
    (texts : list (option str)) :
  pages pdf = Returns ps ->
  map extract_text ps = map (@Returns (option str)) texts ->
  close pdf = Returns tt ->
  extract_pdf_text (Returns pdf) = Some (strip (List.concat (kept_lines texts)))
  /\ exists ws1 ws2,
       List.concat (kept_lines texts)
       = ws1 ++ strip (List.concat (kept_lines texts)) ++ ws2
       /\ all_space ws1 /\ all_space ws2.
Proof.
  intros Hp Ht Hc. split; [|apply strip_split].
  unfold extract_pdf_text, try_extract. simpl.
  rewrite Hp. simpl. rewrite (extract_pages_kept ps texts [] Ht). simpl.
  rewrite Hc. reflexivity.
Qed.

Lemma extract_pdf_text_pages_three :
  extract_pdf_text three_pages
  = Some (strip (List.concat
                   (kept_lines [Some (py " Jane Doe"); None;
                                Some (py "Python, SQL ")]))).
Proof.
  exact (proj1 (extract_pdf_text_pages
                  {| pages := Returns
                       [ {| extract_text := Returns (Some (py " Jane Doe")) |};
                         {| extract_text := Returns None |};
                         {| extract_text := Returns (Some (py "Python, SQL ")) |} ];
                     close := Returns tt |}
                  _ [Some (py " Jane Doe"); None; Some (py "Python, SQL ")]
                  eq_refl eq_refl eq_refl)).
Defined.

(** X8: a text returned by extract_pdf_text has no whitespace at its start
    nor at its end. *)
Theorem extract_pdf_text_trimmed (uploaded_file : upload) (text : str) :
  extract_pdf_text uploaded_file = Some text -> trimmed text.
Proof.
  unfold extract_pdf_text, try_extract.
  destruct uploaded_file as [pdf|]; simpl; [|discriminate].
  destruct (pages pdf) as [ps|]; simpl; [|discriminate].
  destruct (extract_pages ps []) as [t|]; simpl; [|discriminate].
  destruct (close pdf); simpl; [|discriminate].
  intros [= <-]. apply strip_trimmed.
Qed.

Lemma extract_pdf_text_trimmed_three :
  extract_pdf_text three_pages
  = Some (py "Jane Doe" ++ newline :: py "Python, SQL")
  /\ trimmed (py "Jane Doe" ++ newline :: py "Python, SQL").
Proof.
  split; [reflexivity|].
  exact (extract_pdf_text_trimmed three_pages _ eq_refl).
Defined.

(** X9: when the page goes on after an upload, the resume text is not
    empty, has no whitespace at its ends, and gives at least one token to
    match keywords against. *)
Theorem on_upload_resume_words (upload_file : upload) (resume_text : str) :
  on_upload upload_file = Proceed resume_text ->
  resume_text <> [] /\ trimmed resume_text /\ resume_words resume_text <> [].
Proof.
  unfold on_upload.
  destruct (extract_pdf_text upload_file) as [[|c t]|] eqn:E; simpl;
    try discriminate.
  intros [= <-].
  apply extract_pdf_text_trimmed in E.
  split; [discriminate|]. split; [exact E|].
  destruct E as [E _]. simpl in E.
  unfold resume_words, split. intro H.
  apply split_from_nil in H. destruct H as [_ H]. simpl in H.
  rewrite is_space_lower_char, E in H. discriminate.
Qed.

Lemma on_upload_resume_words_three :
  on_upload three_pages = Proceed (py "Jane Doe" ++ newline :: py "Python, SQL")
  /\ resume_words (py "Jane Doe" ++ newline :: py "Python, SQL") <> [].
Proof.
  split; [reflexivity|].
  exact (proj2 (proj2 (on_upload_resume_words three_pages _ eq_refl))).
Defined.

End ExtractionFacts.

(** ** More on the model call *)

Section GatewayFacts.
Import Gateway GatewaySpec.

(** X10: for each of the six modes the prompt is rendered without raising,
    exactly one prompt is sent to the remote model, and the result of the
    call is what the model gives for it, its exception included; the prompt
    does not depend on what the model does. *)
Theorem get_model_response_one_call
    (job_desc resume_text : pyval) (mode : str) (extra : pyval) :
  In mode modes ->
  exists rendered,
    forall model : str -> outcome str,
      get_model_response model job_desc resume_text mode extra
      = sent model rendered.
Proof.
  unfold modes. simpl.
  intros [<-|[<-|[<-|[<-|[<-|[<-|[]]]]]]].
  - eexists. intro model.
    apply dispatch_general with (p := review_prompt); [simpl; tauto|].
    lazy. reflexivity.
  - eexists. intro model.
    apply dispatch_general with (p := optimize_prompt); [simpl; tauto|].
    lazy. reflexivity.
  - eexists. intro model.
    apply dispatch_general with (p := score_prompt); [simpl; tauto|].
    lazy. reflexivity.
  - eexists. intro model.
    apply dispatch_general with (p := fit_prompt); [simpl; tauto|].
    lazy. reflexivity.
  - eexists. intro model.
    apply dispatch_general with (p := design_prompt); [simpl; tauto|].
    lazy. reflexivity.
  - eexists. intro model. rewrite dispatch_translate.
    apply chain_invoke_sent. lazy. reflexivity.
Qed.

Lemma get_model_response_one_call_fit :
  In (py "fit") modes /\
  exists rendered,
    forall model : str -> outcome str,
      get_model_response model (PStr (py "Go developer")) (PStr (py "Jane Doe"))
                         (py "fit") PNone
      = sent model rendered.
Proof.
  assert (H : In (py "fit") modes).
  { unfold modes. simpl. tauto. }
  split; [exact H|].
  exact (get_model_response_one_call (PStr (py "Go developer"))
           (PStr (py "Jane Doe")) (py "fit") PNone H).
Defined.

(** X11: the extra argument is looked at in mode translate only. *)
Theorem get_model_response_extra_unused (model : str -> outcome str)
    (job_desc resume_text : pyval) (mode : str) (extra1 extra2 : pyval) :
  mode <> py "translate" ->
  get_model_response model job_desc resume_text mode extra1
  = get_model_response model job_desc resume_text mode extra2.
Proof.
  intro H. unfold get_model_response.
  repeat match goal with
  | |- context [str_eq_dec mode ?b] =>
      destruct (str_eq_dec mode b) as [E|_]; [try reflexivity; contradiction|]
  end.
  reflexivity.
Qed.

Lemma get_model_response_extra_unused_design :
  py "design" <> py "translate" /\
  get_model_response (fun prompt => Returns prompt) PNone (PStr (py "Jane Doe"))
                     (py "design") PNone
  = get_model_response (fun prompt => Returns prompt) PNone (PStr (py "Jane Doe"))
                       (py "design") (PStr (py "French")).
Proof.
  assert (H : py "design" <> py "translate") by discriminate.
  split; [exact H|].
  exact (get_model_response_extra_unused (fun prompt => Returns prompt)
           PNone (PStr (py "Jane Doe")) (py "design")
           PNone (PStr (py "French")) H).
Defined.

End GatewayFacts.

(** ** The page *)

Section PageFacts.
Import Pdf PdfSpec Gateway GatewaySpec Page.

Context {O : SetOrder}.
Variable model : str -> outcome str.

Lemma on_upload_error (f : upload) :
  on_upload f = ExtractionError <-> parse_raises f \/ no_text f.
Proof.
  rewrite <- extract_pdf_text_None, <- extract_pdf_text_empty.
  unfold on_upload.
  destruct (extract_pdf_text f) as [[|c t]|]; simpl.
  - tauto.
  - split; [discriminate | intros [H|H]; discriminate H].
  - tauto.
Qed.

(** X12: with a file uploaded, the page stops at the extraction error
    exactly when the parse raises or yields no extractable text; then no
    button calls the model or computes the keyword coverage. *)
Theorem page_stops_on_extraction_failure (job_desc : str) (f : upload)
    (lang : language) (pressed : option button) :
  page model job_desc (Some f) lang pressed = ExtractionFailed
  <-> parse_raises f \/ no_text f.
Proof.
  rewrite <- on_upload_error. unfold page.
  destruct (on_upload f) as [|resume_text].
  - tauto.
  - split; [|discriminate].
    destruct pressed as [[]|]; discriminate.
Qed.

(** X13: whenever the page calls the model, exactly one prompt is sent and
    the result is what the model gives for it: the buttons use the six
    modes only, so the answer for an invalid mode is never what is shown. *)
Theorem page_model_calls (job_desc : str) (upload_file : option upload)
    (lang : language) (pressed : option button) (result : outcome str * list str) :
  page model job_desc upload_file lang pressed = ModelResult result ->
  exists rendered, result = sent model rendered.
Proof.
  unfold page.
  destruct upload_file as [f|]; [|discriminate].
  destruct (on_upload f) as [|resume_text]; [discriminate|].
  destruct pressed as [[]|]; try discriminate; intros [= <-]; eexists.
  - apply dispatch_general with (p := review_prompt); [simpl; tauto|].
    lazy. reflexivity.
  - apply dispatch_general with (p := optimize_prompt); [simpl; tauto|].
    lazy. reflexivity.
  - apply dispatch_general with (p := score_prompt); [simpl; tauto|].
    lazy. reflexivity.
  - apply dispatch_general with (p := fit_prompt); [simpl; tauto|].
    lazy. reflexivity.
  - apply dispatch_general with (p := design_prompt); [simpl; tauto|].
    lazy. reflexivity.
  - rewrite dispatch_translate. apply chain_invoke_sent. lazy. reflexivity.
Qed.

(** X14: the translate button sends the translation template filled with the
    language chosen in the select box and the resume text that was
    extracted; what the job description field holds plays no part. *)
Theorem page_translate_prompt (job_desc : str) (f : upload) (lang : language)
    (resume_text : str) :
  on_upload f = Proceed resume_text ->
  page model job_desc (Some f) lang (Some TranslateResume)
  = ModelResult (sent model (resume_into (PStr (label lang)) (PStr resume_text))).
Proof.
  intro H. unfold page. rewrite H. f_equal.
  rewrite dispatch_translate. apply chain_invoke_sent.
  vm_compute. reflexivity.
Qed.


End PageFacts.

Lemma page_translate_prompt_three :
  Pdf.on_upload three_pages
  = Pdf.Proceed (py "Jane Doe" ++ Pdf.newline :: py "Python, SQL") /\
  @Page.page last_seen_order (fun prompt => Returns prompt)
    (py "Go developer") (Some three_pages) Page.Hindi (Some Page.TranslateResume)
  = Page.ModelResult
      (GatewaySpec.sent (fun prompt => Returns prompt)
         (GatewaySpec.resume_into
            (Gateway.PStr (Page.label Page.Hindi))
            (Gateway.PStr (py "Jane Doe" ++ Pdf.newline :: py "Python, SQL")))).
Proof.
  split; [reflexivity|].
  exact (@page_translate_prompt last_seen_order (fun prompt => Returns prompt)
           (py "Go developer") three_pages Page.Hindi _ eq_refl).
Defined.


(** ** The keyword lines that are displayed *)

Section JoinFacts.
Import Re Page.

Lemma findall_from_fuel (fuel1 : nat) :
  forall (fuel2 : nat) (prev : option ascii) (s : str),
    len s <= fuel1 -> len s <= fuel2 ->
    findall_from fuel1 prev s = findall_from fuel2 prev s.
Proof.
  unfold len.
  induction fuel1 as [|fuel1 IH]; intros fuel2 prev s H1 H2.
  - destruct s; [|simpl in H1; lia]. destruct fuel2; reflexivity.
  - destruct s as [|c s]; [destruct fuel2; reflexivity|].
    destruct fuel2 as [|fuel2]; [simpl in H2; lia|].
    rewrite !findall_from_cons. simpl in H1, H2.
    destruct (at_boundary prev (Some c)); [|apply IH; lia].
    destruct (is_word c) eqn:Hc.
    + destruct (match_run_word c s Hc) as (m & rest & Hm & Hs & _).
      rewrite Hm. apply (f_equal (@List.length ascii)) in Hs.
      rewrite length_app in Hs. simpl in Hs. f_equal. apply IH; lia.
    + rewrite (match_run_not_word (c :: s)) by exact Hc. apply IH; lia.
Qed.

Lemma findall_from_skip (fuel : nat) (prev : option ascii) (c : ascii) (s : str) :
  is_word c = false ->
  findall_from (S fuel) prev (c :: s) = findall_from fuel (Some c) s.
Proof.
  intro Hc. rewrite findall_from_cons.
  rewrite (match_run_not_word (c :: s)) by exact Hc.
  now destruct (at_boundary prev (Some c)).
Qed.

Lemma findall_from_word (fuel : nat) (prev : option ascii) (x rest : str) :
  x <> [] ->
  Forall (fun c => is_word c = true) x ->
  word_at prev = false ->
  word_at (hd_error rest) = false ->
  findall_from (S fuel) prev (x ++ rest)
  = x :: findall_from fuel (last_error x) rest.
Proof.
  intros Hx Hw Hp Hr. destruct x as [|c x]; [contradiction|].
  assert (Hc : is_word c = true) by now inversion Hw.
  change ((c :: x) ++ rest) with (c :: (x ++ rest)).
  rewrite findall_from_cons.
  unfold at_boundary. rewrite Hp. simpl word_at. rewrite Hc. simpl xorb.
  destruct (match_run_word c (x ++ rest) Hc) as (m & rest' & Hm & Hs & Hw' & Hr').
  rewrite Hm.
  change (c :: x ++ rest) with ((c :: x) ++ rest) in Hs.
  destruct (word_prefix_unique _ _ _ _ Hs Hw Hw' Hr Hr') as [E ->].
  rewrite <- E. f_equal. f_equal. symmetry. apply last_error_last.
Qed.

Lemma findall_from_join (l : list str) :
  Forall (fun w => w <> [] /\ Forall (fun c => is_word c = true) w) l ->
  forall (fuel : nat) (prev : option ascii),
    len (join (py ", ") l) <= fuel ->
    word_at prev = false ->
    findall_from fuel prev (join (py ", ") l) = l.
Proof.
  unfold len.
  induction 1 as [|x l [Hx Hw] _ IH]; intros fuel prev Hf Hp.
  - destruct fuel; reflexivity.
  - destruct l as [|y l].
    + simpl in *. destruct fuel as [|fuel].
      { destruct x; [contradiction | simpl in Hf; lia]. }
      rewrite <- (app_nil_r x) at 1.
      rewrite findall_from_word by trivial.
      destruct fuel; reflexivity.
    + change (join (py ", ") (x :: y :: l))
        with (x ++ py ", " ++ join (py ", ") (y :: l)) in *.
      set (rest := join (py ", ") (y :: l)) in *.
      assert (Lx : 1 <= List.length x)
        by (destruct x; [contradiction | simpl; lia]).
      rewrite length_app in Hf.
      change (py ", " ++ rest) with (py "," ++ py " " ++ rest) in *.
      change (List.length (py "," ++ py " " ++ rest))
        with (S (S (List.length rest))) in Hf.
      destruct fuel as [|[|[|fuel]]]; try lia.
      rewrite findall_from_word by trivial. f_equal.
      change (py "," ++ py " " ++ rest)
        with (hd " "%char (py ",") :: hd " "%char (py " ") :: rest).
      rewrite !findall_from_skip by reflexivity.
      apply IH; [lia | reflexivity].
Qed.

(** X16: the line that shows a sequence of keywords can be read back: the
    runs of word characters of the matched line are the matched keywords,
    in order, and those of the missing line the missing keywords. *)
Theorem keyword_lines_read_back {O : SetOrder} (job_desc resume_text : str) :
  let matched := fst (keyword_coverage job_desc resume_text) in
  let missing := snd (keyword_coverage job_desc resume_text) in
  findall (join (py ", ") matched) = matched /\
  findall (join (py ", ") missing) = missing.
Proof.
  cbv zeta.
  assert (W : forall l, incl l (jd_keywords job_desc) ->
              findall (join (py ", ") l) = l).
  { intros l I. apply findall_from_join; [|reflexivity|reflexivity].
    apply Forall_forall. intros w Hw. apply I, jd_keywords_runs in Hw.
    destruct Hw as [(a & b & _ & Hne & F & _) _]. now split. }
  split; apply W; intros w Hw.
  - apply In_matched in Hw. tauto.
  - apply In_missing in Hw. tauto.
Qed.

End JoinFacts.

Lemma page_model_calls_review :
  exists rendered,
    Gateway.get_model_response (fun prompt => Returns prompt)
      (Gateway.PStr (py "Go developer"))
      (Gateway.PStr (py "Jane Doe" ++ Pdf.newline :: py "Python, SQL"))
      (py "review") Gateway.PNone
    = GatewaySpec.sent (fun prompt => Returns prompt) rendered.
Proof.
  exact (@page_model_calls last_seen_order (fun prompt => Returns prompt)
           (py "Go developer") (Some three_pages) Page.French
           (Some Page.RunReview) _ eq_refl).
Defined.
